(** * mathscript: the symbol table ([symtable.cpp])

    A shallow embedding of [SymTable]: a scope node with a variable map, a
    function map and a raw, non-owning [parent] pointer.  Scope nodes live in
    a store indexed by addresses, because the code links them by pointer,
    allocates call frames with [new] and releases them with [delete].

    Loops and the recursive variants walk [parent] pointers, which nothing in
    the type forces to be acyclic; they are written with a step budget, and
    [None] means that the budget ran out before the code returned or threw. *)

From stdpp Require Import base gmap strings list fin_maps.

Open Scope string_scope.
Open Scope nat_scope.

(** ** Data model *)

(** Address of a [SymTable] object; [SymTable *] is [option addr], with
    [None] for [nullptr]. *)
Definition addr := positive.

(** [ObjPtr] is a shared handle on a value.  The symbol table only stores and
    copies handles, it never looks inside; a handle is modelled by the
    identity of the object it points to. *)
Definition ObjPtr := Z.

(** [Function], the host callable stored at index 0 of the function variant.
    It is kept as a handle; [call_native] below runs it. *)
Definition Function := nat.

(** [CompoundNode], the statement block of a user function.  It is kept as a
    handle; [eval] below runs it. *)
Definition CompoundNode := nat.

(** [VariableNode]: the only field this file reads is [name]. *)
Record VariableNode := { vname : string }.

(** [FunctionDef{statements, params}]. *)
Record FunctionDef := {
  statements : CompoundNode;
  params : list VariableNode;
}.

(** [std::variant<Function, FunctionDef>]: index 0 is the native callable. *)
Inductive FunctionVariant :=
| Native (f : Function)
| UserDef (d : FunctionDef).

Record SymTable := {
  variables : gmap string ObjPtr;
  functions : gmap string FunctionVariant;
  parent : option addr;
}.

(** Modelled from the spec: the header declaring [Result] is not part of the
    sources.  The code builds [Result{Result::Type::kSingle, v}] and reads
    [std::get<std::vector<ObjPtr>>(r.data)], so a result is a type tag next
    to a variant holding one value or a sequence of values; the tag of the
    sequence case is named [kMultiple] here. *)
Inductive ResultType := kSingle | kMultiple.

Record Result := {
  type : ResultType;
  data : ObjPtr + list ObjPtr;
}.

Inductive exception :=
| UndeclaredVariableError (name : string)
| EvaluationError (msg : string)
| bad_variant_access
| foreign_exception (what : string).

(** Outcome of a call: a value and the store it leaves, an exception and the
    store it leaves, or [Undefined] when a pointer to no live object is
    dereferenced or deleted. *)
Inductive res (A : Type) :=
| Ret (a : A) (h : gmap addr SymTable)
| Throw (e : exception) (h : gmap addr SymTable)
| Undefined.
Arguments Ret {A} a h.
Arguments Throw {A} e h.
Arguments Undefined {A}.

(** How control leaves the [while] loop of [ExecuteFunction]: by a [return]
    or [throw] inside the body, or because the condition became false. *)
Inductive loop_exit :=
| Exit (r : res Result)
| LoopEnd.

(** ** Variables *)

(** [t->variables[k] = v] on the object at address [n]. *)
Definition store_variable (n : addr) (k : string) (v : ObjPtr)
    (h : gmap addr SymTable) : gmap addr SymTable :=
  alter (λ t, {| variables := <[k := v]> (variables t);
                 functions := functions t;
                 parent := parent t |}) n h.

(** The [while] loop of [FindVariable].  The last statement of the body is
    [node = this->parent]: it reads the parent of [this], not of [node]. *)
Fixpoint FindVariable_loop (fuel : nat) (this : addr) (node : option addr)
    (name : string) (h : gmap addr SymTable) : option (res ObjPtr) :=
  match fuel with
  | O => None
  | S fuel' =>
    match node with
    | None => Some (Throw (UndeclaredVariableError name) h)
    | Some n =>
      match h !! n with
      | None => Some Undefined
      | Some t =>
        match variables t !! name with
        | Some v => Some (Ret v h)
        | None =>
          match h !! this with
          | None => Some Undefined
          | Some t0 => FindVariable_loop fuel' this (parent t0) name h
          end
        end
      end
    end
  end.

Definition FindVariable (fuel : nat) (this : addr) (name : string)
    (h : gmap addr SymTable) : option (res ObjPtr) :=
  FindVariable_loop fuel this (Some this) name h.

(** [RecFindVariable(node, name)]; the method does not use [this]. *)
Fixpoint RecFindVariable (fuel : nat) (node : addr) (name : string)
    (h : gmap addr SymTable) : option (res ObjPtr) :=
  match fuel with
  | O => None
  | S fuel' =>
    match h !! node with
    | None => Some Undefined
    | Some t =>
      match variables t !! name with
      | Some v => Some (Ret v h)
      | None =>
        match parent t with
        | None => Some (Throw (UndeclaredVariableError name) h)
        | Some p => RecFindVariable fuel' p name h
        end
      end
    end
  end.

Definition AssignVariable (this : addr) (name : string) (obj : ObjPtr)
    (h : gmap addr SymTable) : res unit :=
  match h !! this with
  | None => Undefined
  | Some _ => Ret tt (store_variable this name obj h)
  end.

(** ** Functions *)

Definition CreateFunction (this : addr) (name : string)
    (params : list VariableNode) (statements : CompoundNode)
    (h : gmap addr SymTable) : res unit :=
  match h !! this with
  | None => Undefined
  | Some t =>
    Ret tt (<[this := {| variables := variables t;
                         functions := <[name := UserDef {| statements := statements;
                                                           params := params |}]>
                                        (functions t);
                         parent := parent t |}]> h)
  end.

(** [new SymTable]: the address is one that holds no live object. *)
Definition new_addr (h : gmap addr SymTable) : addr := fresh (dom h).

Definition empty_table (p : option addr) : SymTable :=
  {| variables := ∅; functions := ∅; parent := p |}.

Definition ConstructGlobalTable (h : gmap addr SymTable)
    : addr * gmap addr SymTable :=
  (new_addr h, <[new_addr h := empty_table None]> h).

(** The loop [for i: newNode->variables[params[i]->name] = args[i]], run
    after the sizes were found equal. *)
Definition load_variables (newNode : addr) (ps : list VariableNode)
    (args : list ObjPtr) (h : gmap addr SymTable) : gmap addr SymTable :=
  foldl (λ h' pa, store_variable newNode (vname (fst pa)) (snd pa) h')
        h (zip ps args).

(** The message of the error thrown at the root for an unknown name. *)
Definition not_defined (name : string) : string :=
  "function '" ++ name ++ "' not defined!".

Section Dispatch.

(** The two collaborators: running a host callable, and evaluating a
    statement block against a scope node.  Both may read and change the
    store, and both may throw. *)
Variable call_native : Function → list ObjPtr → gmap addr SymTable → res Result.
Variable eval : CompoundNode → addr → gmap addr SymTable → res Result.

(** From [std::get<std::vector<ObjPtr>>(...)] to the final [return]. *)
Definition return_last (newNode : addr) (r : res Result) : res Result :=
  match r with
  | Undefined => Undefined
  | Throw e h => Throw e h
  | Ret r h =>
    match data r with
    | inl _ => Throw bad_variant_access h
    | inr ev =>
      match ev with
      | [] => Throw (EvaluationError "function didn't return anything") h
      | v :: ev' =>
        match h !! newNode with
        | None => Undefined
        | Some _ =>
          Ret {| type := kSingle; data := inl (List.last ev' v) |}
              (delete newNode h)
        end
      end
    end
  end.

(** The second [if] of the loop body, entered with the entry found under
    [name]: the user-defined call. *)
Definition user_call (this : addr) (func : FunctionVariant)
    (args : list ObjPtr) (h : gmap addr SymTable) : res Result :=
  match func with
  | Native _ => Throw bad_variant_access h
  | UserDef d =>
    let newNode := new_addr h in
    let h1 := <[newNode := empty_table (Some this)]> h in
    if decide (length (params d) = length args) then
      return_last newNode
        (eval (statements d) newNode (load_variables newNode (params d) args h1))
    else Throw (EvaluationError "didn't get expected arguments") h1
  end.

(** The first [if] of the loop body, [node->parent == nullptr]: [Some r]
    when it returns or throws, [None] when control falls through. *)
Definition root_check (t : SymTable) (name : string) (args : list ObjPtr)
    (h : gmap addr SymTable) : option (res Result) :=
  match parent t with
  | Some _ => None
  | None =>
    match functions t !! name with
    | Some (Native f) => Some (call_native f args h)
    | Some (UserDef _) => None
    | None => Some (Throw (EvaluationError (not_defined name)) h)
    end
  end.

Fixpoint ExecuteFunction_loop (fuel : nat) (this : addr) (node : option addr)
    (name : string) (args : list ObjPtr) (h : gmap addr SymTable)
    : option loop_exit :=
  match fuel with
  | O => None
  | S fuel' =>
    match node with
    | None => Some LoopEnd
    | Some n =>
      match h !! n with
      | None => Some (Exit Undefined)
      | Some t =>
        match root_check t name args h with
        | Some r => Some (Exit r)
        | None =>
          match functions t !! name with
          | Some func => Some (Exit (user_call this func args h))
          | None => ExecuteFunction_loop fuel' this (parent t) name args h
          end
        end
      end
    end
  end.

Definition ExecuteFunction (fuel : nat) (this : addr) (name : string)
    (args : list ObjPtr) (h : gmap addr SymTable) : option (res Result) :=
  match ExecuteFunction_loop fuel this (Some this) name args h with
  | None => None
  | Some (Exit r) => Some r
  | Some LoopEnd =>
    Some (Throw (EvaluationError "did not expect to get here in execution stack") h)
  end.

(** [RecExecuteFunction(node, name, args)] called on [this]. *)
Fixpoint RecExecuteFunction (fuel : nat) (this : addr) (node : addr)
    (name : string) (args : list ObjPtr) (h : gmap addr SymTable)
    : option (res Result) :=
  match fuel with
  | O => None
  | S fuel' =>
    match h !! node with
    | None => Some Undefined
    | Some t =>
      match root_check t name args h with
      | Some r => Some r
      | None =>
        match functions t !! name with
        | Some func => Some (user_call this func args h)
        | None =>
          match parent t with
          | None => Some Undefined
          | Some p => RecExecuteFunction fuel' this p name args h
          end
        end
      end
    end
  end.

(** What the body of the loop does at the scope [t] that holds the entry
    [fv]: only at a root is a native callable run. *)
Definition dispatch_at (this : addr) (t : SymTable) (fv : FunctionVariant)
    (args : list ObjPtr) (h : gmap addr SymTable) : res Result :=
  match fv, parent t with
  | Native f, None => call_native f args h
  | _, _ => user_call this fv args h
  end.

End Dispatch.

(** ** Notions used to state the properties *)

(** [chain h n l]: following [parent] from [n] visits exactly the live
    objects [l], the last of which is a root. *)
Inductive chain (h : gmap addr SymTable) : addr → list addr → Prop :=
| chain_root n t :
    h !! n = Some t → parent t = None → chain h n [n]
| chain_step n t p l :
    h !! n = Some t → parent t = Some p → chain h p l → chain h n (n :: l).

(** [bound_nearest h name n k d v]: going outward from [n], the first scope
    that binds the variable [name] is [d], [k] scopes away, with value [v]. *)
Inductive bound_nearest (h : gmap addr SymTable) (name : string)
    : addr → nat → addr → ObjPtr → Prop :=
| bound_here n t v :
    h !! n = Some t → variables t !! name = Some v →
    bound_nearest h name n 0 n v
| bound_up n t p k d v :
    h !! n = Some t → variables t !! name = None → parent t = Some p →
    bound_nearest h name p k d v →
    bound_nearest h name n (S k) d v.

(** [unbound h name n k]: no scope from [n] to the root, [k] scopes away,
    binds the variable [name]. *)
Inductive unbound (h : gmap addr SymTable) (name : string)
    : addr → nat → Prop :=
| unbound_root n t :
    h !! n = Some t → variables t !! name = None → parent t = None →
    unbound h name n 0
| unbound_up n t p k :
    h !! n = Some t → variables t !! name = None → parent t = Some p →
    unbound h name p k →
    unbound h name n (S k).

(** [registered_nearest h name n k d fv]: going outward from [n], the first
    scope whose function map has an entry for [name] is [d], [k] scopes away,
    and the entry is [fv]. *)
Inductive registered_nearest (h : gmap addr SymTable) (name : string)
    : addr → nat → addr → FunctionVariant → Prop :=
| registered_here n t fv :
    h !! n = Some t → functions t !! name = Some fv →
    registered_nearest h name n 0 n fv
| registered_up n t p k d fv :
    h !! n = Some t → functions t !! name = None → parent t = Some p →
    registered_nearest h name p k d fv →
    registered_nearest h name n (S k) d fv.

(** [unregistered h name n k]: no function map from [n] to the root, [k]
    scopes away, has an entry for [name]. *)
Inductive unregistered (h : gmap addr SymTable) (name : string)
    : addr → nat → Prop :=
| unregistered_root n t :
    h !! n = Some t → functions t !! name = None → parent t = None →
    unregistered h name n 0
| unregistered_up n t p k :
    h !! n = Some t → functions t !! name = None → parent t = Some p →
    unregistered h name p k →
    unregistered h name n (S k).

Definition is_root (h : gmap addr SymTable) (n : addr) : Prop :=
  ∃ t, h !! n = Some t ∧ parent t = None.

(** Parameters bound to arguments position by position; a later parameter
    of the same name overwrites an earlier one. *)
Definition bind_params (ps : list VariableNode) (args : list ObjPtr)
    (m : gmap string ObjPtr) : gmap string ObjPtr :=
  foldl (λ m' pa, <[vname (fst pa) := snd pa]> m') m (zip ps args).

(** The scope node handed to the body of a user-defined call made on [this],
    and the store it is handed in. *)
Definition frame_store (this : addr) (d : FunctionDef) (args : list ObjPtr)
    (h : gmap addr SymTable) : gmap addr SymTable :=
  load_variables (new_addr h) (params d) args
                 (<[new_addr h := empty_table (Some this)]> h).

(** ** A small program state to run the code on *)

Definition def_h : FunctionDef :=
  {| statements := 1; params := [ {| vname := "a" |}; {| vname := "b" |} ] |}.
Definition def_f : FunctionDef :=
  {| statements := 2; params := [ {| vname := "a" |} ] |}.
Definition def_e : FunctionDef :=
  {| statements := 0; params := [] |}.

Definition global_scope : SymTable :=
  {| variables := {[ "g" := 7%Z ]};
     functions := {[ "f" := Native 0; "h" := UserDef def_h; "e" := UserDef def_e ]};
     parent := None |}.
Definition middle_scope : SymTable :=
  {| variables := {[ "m" := 8%Z ]};
     functions := {[ "f" := UserDef def_f ]};
     parent := Some 1%positive |}.
Definition leaf_scope : SymTable :=
  {| variables := {[ "l" := 9%Z ]};
     functions := ∅;
     parent := Some 2%positive |}.

(** Scope 3 is nested in scope 2, which is nested in the global scope 1. *)
Definition store3 : gmap addr SymTable :=
  {[ 1%positive := global_scope; 2%positive := middle_scope;
     3%positive := leaf_scope ]}.

(** Scope 2 nested in the global scope 1. *)
Definition store2 : gmap addr SymTable :=
  {[ 1%positive := global_scope; 2%positive := middle_scope ]}.

(** A host callable that ignores its arguments. *)
Definition native_zero (f : Function) (args : list ObjPtr)
    (h : gmap addr SymTable) : res Result :=
  Ret {| type := kSingle; data := inl 0%Z |} h.

(** An evaluator for three statement blocks: block 0 yields no value, block 1
    yields the values 1, 2, 3, and block 2 yields the value of the variable
    [l] as seen from the scope it runs in. *)
Definition eval_blocks (c : CompoundNode) (env : addr)
    (h : gmap addr SymTable) : res Result :=
  match c with
  | 0 => Ret {| type := kMultiple; data := inr [] |} h
  | 1 => Ret {| type := kMultiple; data := inr [1%Z; 2%Z; 3%Z] |} h
  | 2 =>
    match RecFindVariable 8 env "l" h with
    | Some (Ret v h') => Ret {| type := kMultiple; data := inr [v] |} h'
    | Some (Throw e h') => Throw e h'
    | _ => Undefined
    end
  | _ => Throw (foreign_exception "unknown block") h
  end.

(** The same outcome, reported with the store [h]: lookups do not change
    the store, so two lookups in two stores are compared through this. *)
Definition set_store {A} (h : gmap addr SymTable) (r : res A) : res A :=
  match r with
  | Ret a _ => Ret a h
  | Throw e _ => Throw e h
  | Undefined => Undefined
  end.





(** ** Variable lookup *)

Lemma FindVariable_here fuel this name h t v :
  h !! this = Some t → variables t !! name = Some v →
  FindVariable (S fuel) this name h = Some (Ret v h).
Proof.
  intros Ht Hv. unfold FindVariable. simpl. by rewrite Ht, Hv.
Qed.

Lemma FindVariable_root_unbound fuel this name h t :
  h !! this = Some t → variables t !! name = None → parent t = None →
  FindVariable (S (S fuel)) this name h
  = Some (Throw (UndeclaredVariableError name) h).
Proof.
  intros Ht Hv Hp. unfold FindVariable. simpl. by rewrite Ht, Hv, Hp.
Qed.

Lemma FindVariable_parent fuel this name h t p tp v :
  h !! this = Some t → variables t !! name = None → parent t = Some p →
  h !! p = Some tp → variables tp !! name = Some v →
  FindVariable (S (S fuel)) this name h = Some (Ret v h).
Proof.
  intros Ht Hv Hp Htp Hvp. unfold FindVariable. simpl.
  by rewrite Ht, Hv, Hp, Htp, Hvp.
Qed.

(** Once the loop stands on the parent of [this] and the name is bound
    neither there nor in [this], every further step is the same step. *)
Lemma FindVariable_loop_stuck fuel this name h t p tp :
  h !! this = Some t → parent t = Some p →
  h !! p = Some tp → variables tp !! name = None →
  FindVariable_loop fuel this (Some p) name h = None.
Proof.
  intros Ht Hp Htp Hvp. induction fuel as [|fuel IH]; [done|].
  simpl. rewrite Htp, Hvp, Ht, Hp. exact IH.
Qed.

(** With the name bound neither in [this] nor in its parent, no step budget
    lets the loop return or throw. *)
Lemma FindVariable_never_returns h this t p tp (name : string) :
  h !! this = Some t → variables t !! name = None → parent t = Some p →
  h !! p = Some tp → variables tp !! name = None →
  ∀ fuel, FindVariable fuel this name h = None.
Proof.
  intros Ht Hv Hp Htp Hvp [|fuel]; [done|].
  unfold FindVariable. simpl. rewrite Ht, Hv, Hp.
  by eapply FindVariable_loop_stuck.
Qed.

Lemma RecFindVariable_bound h name n k d v fuel :
  bound_nearest h name n k d v → k < fuel →
  RecFindVariable fuel n name h = Some (Ret v h).
Proof.
  intros Hb. revert fuel.
  induction Hb as [n t v Ht Hv | n t p k d v Ht Hv Hp _ IH]; intros fuel Hk.
  - destruct fuel as [|fuel]; [lia|]. simpl. by rewrite Ht, Hv.
  - destruct fuel as [|fuel]; [lia|]. simpl. rewrite Ht, Hv, Hp.
    apply IH. lia.
Qed.

Lemma RecFindVariable_unbound h name n k fuel :
  unbound h name n k → k < fuel →
  RecFindVariable fuel n name h = Some (Throw (UndeclaredVariableError name) h).
Proof.
  intros Hu. revert fuel.
  induction Hu as [n t Ht Hv Hp | n t p k Ht Hv Hp _ IH]; intros fuel Hk.
  - destruct fuel as [|fuel]; [lia|]. simpl. by rewrite Ht, Hv, Hp.
  - destruct fuel as [|fuel]; [lia|]. simpl. rewrite Ht, Hv, Hp.
    apply IH. lia.
Qed.

(** Along a finite chain a name is either bound somewhere or nowhere. *)
Lemma chain_bound_or_unbound h n l name :
  chain h n l →
  (∃ k d v, k < length l ∧ bound_nearest h name n k d v)
  ∨ (∃ k, k < length l ∧ unbound h name n k).
Proof.
  induction 1 as [n t Ht Hp | n t p l Ht Hp _ IH].
  - destruct (variables t !! name) as [v|] eqn:Hv.
    + left. exists 0, n, v. split; [simpl; lia|]. by eapply bound_here.
    + right. exists 0. split; [simpl; lia|]. by eapply unbound_root.
  - destruct (variables t !! name) as [v|] eqn:Hv.
    + left. exists 0, n, v. split; [simpl; lia|]. by eapply bound_here.
    + destruct IH as [(k & d & v & Hk & Hb) | (k & Hk & Hu)].
      * left. exists (S k), d, v. split; [simpl; lia|]. by eapply bound_up.
      * right. exists (S k). split; [simpl; lia|]. by eapply unbound_up.
Qed.

(** The recursive lookup terminates on every finite chain. *)
Lemma RecFindVariable_terminates h n l (name : string) (fuel : nat) :
  chain h n l → length l ≤ fuel →
  (∃ v, RecFindVariable fuel n name h = Some (Ret v h))
  ∨ RecFindVariable fuel n name h = Some (Throw (UndeclaredVariableError name) h).
Proof.
  intros Hc Hf.
  destruct (chain_bound_or_unbound h n l name Hc)
    as [(k & d & v & Hk & Hb) | (k & Hk & Hu)].
  - left. exists v. eapply RecFindVariable_bound; [done | lia].
  - right. eapply RecFindVariable_unbound; [done | lia].
Qed.

(** ** Assignment and parameter loading *)

Lemma store_variable_other n k v h a :
  a ≠ n → store_variable n k v h !! a = h !! a.
Proof. intros Hne. unfold store_variable. by rewrite lookup_alter_ne. Qed.

Lemma store_variable_same n k v h t :
  h !! n = Some t →
  store_variable n k v h !! n
  = Some {| variables := <[k := v]> (variables t);
            functions := functions t; parent := parent t |}.
Proof.
  intros Ht. unfold store_variable. by rewrite lookup_alter_eq, Ht.
Qed.

Lemma AssignVariable_spec this name obj h t :
  h !! this = Some t →
  ∃ h', AssignVariable this name obj h = Ret tt h'
      ∧ h' !! this = Some {| variables := <[name := obj]> (variables t);
                             functions := functions t; parent := parent t |}
      ∧ ∀ a, a ≠ this → h' !! a = h !! a.
Proof.
  intros Ht. exists (store_variable this name obj h).
  unfold AssignVariable. rewrite Ht. split; [done|]. split.
  - by apply store_variable_same.
  - intros a Ha. by apply store_variable_other.
Qed.

Lemma load_variables_other n ps args h a :
  a ≠ n → load_variables n ps args h !! a = h !! a.
Proof.
  intros Hne. unfold load_variables.
  generalize (zip ps args) as l. intros l. revert h.
  induction l as [|[p x] l IH]; intros h; [done|].
  simpl. rewrite IH. by apply store_variable_other.
Qed.

Lemma load_variables_same n ps args h t :
  h !! n = Some t →
  load_variables n ps args h !! n
  = Some {| variables := bind_params ps args (variables t);
            functions := functions t; parent := parent t |}.
Proof.
  unfold load_variables, bind_params.
  generalize (zip ps args) as l. intros l. revert h t.
  induction l as [|[p x] l IH]; intros h t Ht.
  - simpl. rewrite Ht. by destruct t.
  - simpl. erewrite IH; [|by apply store_variable_same]. done.
Qed.

Lemma foldl_insert_other (l : list (VariableNode * ObjPtr))
    (m : gmap string ObjPtr) (k : string) :
  (∀ j q b, l !! j = Some (q, b) → vname q ≠ k) →
  foldl (λ m' pa, <[vname (fst pa) := snd pa]> m') m l !! k = m !! k.
Proof.
  revert m. induction l as [|[q b] l IH]; intros m Hl; [done|].
  simpl. rewrite IH.
  - apply lookup_insert_ne. by apply (Hl 0 q b).
  - intros j q' b' Hj. by apply (Hl (S j) q' b').
Qed.

Lemma foldl_insert_at (l : list (VariableNode * ObjPtr))
    (m : gmap string ObjPtr) (i : nat) (p : VariableNode) (a : ObjPtr) :
  l !! i = Some (p, a) →
  (∀ j q b, i < j → l !! j = Some (q, b) → vname q ≠ vname p) →
  foldl (λ m' pa, <[vname (fst pa) := snd pa]> m') m l !! vname p = Some a.
Proof.
  revert m i. induction l as [|[q b] l IH]; intros m i Hi Hlater; [done|].
  destruct i as [|i]; simpl in *.
  - injection Hi as -> ->. rewrite foldl_insert_other.
    + apply lookup_insert_eq.
    + intros j q' b' Hj. apply (Hlater (S j) q' b'); [lia | done].
  - apply (IH _ i Hi). intros j q' b' Hij Hj.
    apply (Hlater (S j) q' b'); [lia | done].
Qed.

(** Each parameter is bound to the argument at its position, unless a later
    parameter has the same name. *)
Lemma bind_params_lookup ps args m i p a :
  ps !! i = Some p → args !! i = Some a →
  (∀ j q, i < j → j < length args → ps !! j = Some q → vname q ≠ vname p) →
  bind_params ps args m !! vname p = Some a.
Proof.
  intros Hp Ha Hlater. unfold bind_params.
  apply foldl_insert_at with (i := i).
  - rewrite lookup_zip_with. by rewrite Hp, Ha.
  - intros j q b Hij Hj. rewrite lookup_zip_with in Hj.
    destruct (ps !! j) as [q'|] eqn:Hq; [|done].
    destruct (args !! j) as [b'|] eqn:Hb; [|done].
    simpl in Hj. injection Hj as <- <-.
    apply (Hlater j q'); [done | | done].
    by eapply lookup_lt_Some.
Qed.

Lemma List_last_cons {A} (v0 v1 : A) (vs : list A) :
  List.last (v1 :: vs) v0 = List.last vs v1.
Proof.
  revert v0 v1. induction vs as [|a vs IH]; intros v0 v1; [done|].
  change (List.last (v1 :: a :: vs) v0) with (List.last (a :: vs) v0).
  rewrite IH. symmetry. apply IH.
Qed.

(** [eval[eval.size() - 1]] is the last element of a non-empty vector. *)
Lemma List_last_is_last {A} (v0 v : A) (vs : list A) :
  last (v0 :: vs) = Some v → List.last vs v0 = v.
Proof.
  revert v0. induction vs as [|v1 vs IH]; intros v0 Hlast.
  - by injection Hlast.
  - rewrite List_last_cons. apply IH. exact Hlast.
Qed.

(** The address of a new object holds no live object. *)
Lemma new_addr_fresh h : h !! new_addr h = None.
Proof.
  unfold new_addr. apply not_elem_of_dom. apply is_fresh.
Qed.

Lemma frame_store_frame this d args h :
  frame_store this d args h !! new_addr h
  = Some {| variables := bind_params (params d) args ∅;
            functions := ∅; parent := Some this |}.
Proof.
  unfold frame_store.
  erewrite load_variables_same; [|apply lookup_insert_eq]. done.
Qed.

Lemma frame_store_other this d args h a :
  a ≠ new_addr h → frame_store this d args h !! a = h !! a.
Proof.
  intros Ha. unfold frame_store.
  rewrite load_variables_other by done. by rewrite lookup_insert_ne.
Qed.

(** ** Dispatch *)

Section DispatchFacts.

Variable call_native : Function → list ObjPtr → gmap addr SymTable → res Result.
Variable eval : CompoundNode → addr → gmap addr SymTable → res Result.

Local Abbreviation user_call := (user_call eval).
Local Abbreviation loop := (ExecuteFunction_loop call_native eval).
Local Abbreviation ExecuteFunction := (ExecuteFunction call_native eval).
Local Abbreviation RecExecuteFunction := (RecExecuteFunction call_native eval).
Local Abbreviation dispatch_at := (dispatch_at call_native eval).

Lemma registered_nearest_entry h name n k d fv :
  registered_nearest h name n k d fv →
  ∃ t, h !! d = Some t ∧ functions t !! name = Some fv.
Proof. induction 1; eauto. Qed.

Lemma loop_registered h name n k d fv this args fuel :
  registered_nearest h name n k d fv → k < fuel →
  ∃ t, h !! d = Some t ∧ functions t !! name = Some fv
     ∧ loop fuel this (Some n) name args h
       = Some (Exit (dispatch_at this t fv args h)).
Proof.
  intros Hr. revert fuel.
  induction Hr as [n t fv Ht Hf | n t p k d fv Ht Hf Hp _ IH];
    intros fuel Hk; (destruct fuel as [|fuel]; [lia|]).
  - exists t. split; [done|]. split; [done|].
    simpl. rewrite Ht. unfold root_check, dispatch_at. rewrite Hf.
    destruct (parent t), fv; done.
  - destruct (IH fuel) as (td & Htd & Hfd & Hloop); [lia|].
    exists td. split; [done|]. split; [done|].
    simpl. rewrite Ht. unfold root_check. by rewrite Hp, Hf.
Qed.

Lemma loop_unregistered h name n k this args fuel :
  unregistered h name n k → k < fuel →
  loop fuel this (Some n) name args h
  = Some (Exit (Throw (EvaluationError (not_defined name)) h)).
Proof.
  intros Hu. revert fuel.
  induction Hu as [n t Ht Hf Hp | n t p k Ht Hf Hp _ IH];
    intros fuel Hk; (destruct fuel as [|fuel]; [lia|]).
  - simpl. rewrite Ht. unfold root_check. by rewrite Hp, Hf.
  - simpl. rewrite Ht. unfold root_check. rewrite Hp, Hf.
    apply IH. lia.
Qed.

Lemma Rec_registered h name n k d fv this args fuel :
  registered_nearest h name n k d fv → k < fuel →
  ∃ t, h !! d = Some t ∧ functions t !! name = Some fv
     ∧ RecExecuteFunction fuel this n name args h
       = Some (dispatch_at this t fv args h).
Proof.
  intros Hr. revert fuel.
  induction Hr as [n t fv Ht Hf | n t p k d fv Ht Hf Hp _ IH];
    intros fuel Hk; (destruct fuel as [|fuel]; [lia|]).
  - exists t. split; [done|]. split; [done|].
    simpl. rewrite Ht. unfold root_check, dispatch_at. rewrite Hf.
    destruct (parent t), fv; done.
  - destruct (IH fuel) as (td & Htd & Hfd & Hrec); [lia|].
    exists td. split; [done|]. split; [done|].
    simpl. rewrite Ht. unfold root_check. by rewrite Hp, Hf.
Qed.

Lemma ExecuteFunction_registered h name k d fv this args fuel :
  registered_nearest h name this k d fv → k < fuel →
  ∃ t, h !! d = Some t ∧ functions t !! name = Some fv
     ∧ ExecuteFunction fuel this name args h
       = Some (dispatch_at this t fv args h).
Proof.
  intros Hr Hk.
  destruct (loop_registered h name this k d fv this args fuel Hr Hk)
    as (t & Ht & Hf & Hloop).
  exists t. split; [done|]. split; [done|].
  unfold ExecuteFunction. by rewrite Hloop.
Qed.

(** A user-defined entry dispatches the user-defined call, wherever on the
    path it is found. *)
Lemma ExecuteFunction_user h name k d def this args fuel :
  registered_nearest h name this k d (UserDef def) → k < fuel →
  ExecuteFunction fuel this name args h
  = Some (user_call this (UserDef def) args h).
Proof.
  intros Hr Hk.
  destruct (ExecuteFunction_registered h name k d _ this args fuel Hr Hk)
    as (t & _ & _ & ->).
  unfold dispatch_at. by destruct (parent t).
Qed.

Lemma RecExecuteFunction_user h name k d def this args fuel :
  registered_nearest h name this k d (UserDef def) → k < fuel →
  RecExecuteFunction fuel this this name args h
  = Some (user_call this (UserDef def) args h).
Proof.
  intros Hr Hk.
  destruct (Rec_registered h name this k d _ this args fuel Hr Hk)
    as (t & _ & _ & ->).
  unfold dispatch_at. by destruct (parent t).
Qed.

Lemma user_call_arity_ok this def args h :
  length (params def) = length args →
  user_call this (UserDef def) args h
  = return_last (new_addr h)
      (eval (statements def) (new_addr h) (frame_store this def args h)).
Proof.
  intros Hlen. unfold user_call, frame_store. by rewrite decide_True.
Qed.

Lemma user_call_arity_mismatch this def args h :
  length (params def) ≠ length args →
  user_call this (UserDef def) args h
  = Throw (EvaluationError "didn't get expected arguments")
          (<[new_addr h := empty_table (Some this)]> h).
Proof.
  intros Hlen. unfold user_call. by rewrite decide_False.
Qed.



End DispatchFacts.

(** ** Facts about the example program state *)

Lemma store3_global : store3 !! 1%positive = Some global_scope.
Proof. vm_compute. reflexivity. Qed.

Lemma store3_middle : store3 !! 2%positive = Some middle_scope.
Proof. vm_compute. reflexivity. Qed.

Lemma store3_leaf : store3 !! 3%positive = Some leaf_scope.
Proof. vm_compute. reflexivity. Qed.

Lemma store2_global : store2 !! 1%positive = Some global_scope.
Proof. vm_compute. reflexivity. Qed.

Lemma store2_middle : store2 !! 2%positive = Some middle_scope.
Proof. vm_compute. reflexivity. Qed.

Lemma chain_store3 : chain store3 3%positive [3; 2; 1]%positive.
Proof.
  eapply chain_step; [apply store3_leaf | reflexivity |].
  eapply chain_step; [apply store3_middle | reflexivity |].
  eapply chain_root; [apply store3_global | reflexivity].
Defined.

Lemma chain_store2 : chain store2 2%positive [2; 1]%positive.
Proof.
  eapply chain_step; [apply store2_middle | reflexivity |].
  eapply chain_root; [apply store2_global | reflexivity].
Defined.

(** ** Variable lookup: what the loop does beyond the first parent *)

(** With the name bound in the current scope or in its parent, the loop and
    the recursion give the same answer. *)
Lemma FindVariable_shallow h name this k d v fuel :
  bound_nearest h name this k d v → k ≤ 1 → 2 ≤ fuel →
  FindVariable fuel this name h = Some (Ret v h)
  ∧ RecFindVariable fuel this name h = Some (Ret v h).
Proof.
  intros Hb Hk Hfuel. split; [|eapply RecFindVariable_bound; [done | lia]].
  destruct fuel as [|[|fuel]]; [lia | lia |].
  inversion Hb as [n t v' Ht Hv | n t p k' d' v' Ht Hv Hp Hb']; subst.
  - by eapply FindVariable_here.
  - inversion Hb' as [n t' v' Ht' Hv' | ]; subst; [|lia].
    by eapply FindVariable_parent.
Qed.

(** C1: lookup is to search the current scope and then each ancestor toward
    the root, and to return the first binding found.  In [store3] the name
    [g] is bound only in the global scope, two scopes away from scope 3: the
    loop of [FindVariable] never returns from there, because after the first
    iteration it stays on the parent of [this]; [RecFindVariable] returns the
    binding. *)
Theorem FindVariable_misses_grandparent :
  bound_nearest store3 "g" 3%positive 2 1%positive 7%Z
  ∧ (∀ fuel, FindVariable fuel 3%positive "g" store3 = None)
  ∧ (∀ fuel, 3 ≤ fuel →
       RecFindVariable fuel 3%positive "g" store3 = Some (Ret 7%Z store3)).
Proof.
  assert (Hb : bound_nearest store3 "g" 3%positive 2 1%positive 7%Z).
  { eapply bound_up; [apply store3_leaf | reflexivity | reflexivity |].
    eapply bound_up; [apply store3_middle | reflexivity | reflexivity |].
    eapply bound_here; [apply store3_global | reflexivity]. }
  split; [exact Hb|]. split.
  - eapply FindVariable_never_returns;
      [apply store3_leaf | reflexivity | reflexivity
      | apply store3_middle | reflexivity].
  - intros fuel Hfuel. eapply RecFindVariable_bound; [exact Hb | lia].
Qed.

(** C2: the loop and the recursion are meant to agree.  In [store2] the name
    [y] is bound nowhere: [RecFindVariable] throws [UndeclaredVariableError],
    the loop of [FindVariable] never returns nor throws. *)
Theorem FindVariable_RecFindVariable_disagree :
  unbound store2 "y" 2%positive 1
  ∧ (∀ fuel, 2 ≤ fuel →
       RecFindVariable fuel 2%positive "y" store2
       = Some (Throw (UndeclaredVariableError "y") store2))
  ∧ (∀ fuel, FindVariable fuel 2%positive "y" store2 = None).
Proof.
  assert (Hu : unbound store2 "y" 2%positive 1).
  { eapply unbound_up; [apply store2_middle | reflexivity | reflexivity |].
    eapply unbound_root; [apply store2_global | reflexivity | reflexivity]. }
  split; [exact Hu|]. split.
  - intros fuel Hfuel. eapply RecFindVariable_unbound; [exact Hu | lia].
  - eapply FindVariable_never_returns;
      [apply store2_middle | reflexivity | reflexivity
      | apply store2_global | reflexivity].
Qed.

(** C3: [FindVariable] is to run to completion on every finite chain.  On a
    finite chain in which the name is bound neither in the current scope nor
    in its parent, no step budget is enough: the loop neither returns nor
    throws, whatever the rest of the chain holds.  [RecFindVariable] returns
    or throws within as many steps as the chain has scopes. *)
Theorem FindVariable_spins h this l t p tp (name : string) :
  chain h this l →
  h !! this = Some t → variables t !! name = None → parent t = Some p →
  h !! p = Some tp → variables tp !! name = None →
  (∀ fuel, FindVariable fuel this name h = None)
  ∧ (∀ fuel, length l ≤ fuel →
       (∃ v, RecFindVariable fuel this name h = Some (Ret v h))
       ∨ RecFindVariable fuel this name h
         = Some (Throw (UndeclaredVariableError name) h)).
Proof.
  intros Hc Ht Hv Hp Htp Hvp. split.
  - by eapply FindVariable_never_returns.
  - intros fuel Hfuel. by eapply RecFindVariable_terminates.
Qed.

Lemma FindVariable_spins_witness :
  chain store2 2%positive [2; 1]%positive
  ∧ (∀ fuel, FindVariable fuel 2%positive "y" store2 = None).
Proof.
  split; [exact chain_store2|].
  apply (FindVariable_spins store2 2%positive [2; 1]%positive middle_scope
           1%positive global_scope "y");
    [exact chain_store2 | apply store2_middle | reflexivity | reflexivity
    | apply store2_global | reflexivity].
Defined.

(** C8: [AssignVariable] creates or overwrites the binding in the scope it
    is called on and changes nothing else.  Whatever that scope held under
    [x] before, afterwards it binds [x] to [v], with its other variables, its
    functions and its parent link as they were; every other object of the
    store, ancestors included, is as it was.  A lookup of [x] from the scope
    returns [v]; a lookup of [x] from another scope [E1] that binds [x], such
    as a parent that alone bound [x], still returns the value [E1] had. *)
Theorem AssignVariable_local h this t (x : string) (v : ObjPtr) :
  h !! this = Some t →
  ∃ h', AssignVariable this x v h = Ret tt h'
      ∧ h' !! this = Some {| variables := <[x := v]> (variables t);
                             functions := functions t; parent := parent t |}
      ∧ (∀ a, a ≠ this → h' !! a = h !! a)
      ∧ (∀ fuel, FindVariable (S fuel) this x h' = Some (Ret v h'))
      ∧ (∀ E1 t1 v1 fuel,
           h !! E1 = Some t1 → variables t1 !! x = Some v1 →
           E1 ≠ this ∨ variables t !! x = None →
           h' !! E1 = Some t1
           ∧ FindVariable (S fuel) E1 x h' = Some (Ret v1 h')).
Proof.
  intros Ht.
  destruct (AssignVariable_spec this x v h t Ht) as (h' & Hrun & Hnew & Hframe).
  exists h'. split; [done|]. split; [done|]. split; [done|]. split.
  - intros fuel. eapply FindVariable_here; [exact Hnew|].
    simpl. apply lookup_insert_eq.
  - intros E1 t1 v1 fuel H1 Hx1 Hcase.
    assert (Hne : E1 ≠ this).
    { destruct Hcase as [Hne | Hx]; [done|]. intros ->. congruence. }
    assert (H1' : h' !! E1 = Some t1) by (rewrite Hframe; done).
    split; [done|]. by eapply FindVariable_here.
Qed.

(** In [store2], [g] is bound only in the global scope 1 and [m] is bound in
    scope 2.  Assigning [g] from scope 2 creates it there; assigning [m] from
    scope 2 overwrites it there; the global scope is untouched by both. *)
Lemma AssignVariable_local_witness :
  (∃ h', AssignVariable 2%positive "g" 5%Z store2 = Ret tt h'
       ∧ h' !! 1%positive = Some global_scope
       ∧ FindVariable 1 1%positive "g" h' = Some (Ret 7%Z h')
       ∧ FindVariable 1 2%positive "g" h' = Some (Ret 5%Z h'))
  ∧ (∃ h', AssignVariable 2%positive "m" 5%Z store2 = Ret tt h'
         ∧ h' !! 1%positive = store2 !! 1%positive
         ∧ FindVariable 1 2%positive "m" h' = Some (Ret 5%Z h')).
Proof.
  split.
  - destruct (AssignVariable_local store2 2%positive middle_scope "g" 5%Z
                store2_middle) as (h' & Hrun & _ & _ & Hhere & Hother).
    destruct (Hother 1%positive global_scope 7%Z 0 store2_global eq_refl
                (or_intror eq_refl)) as (Hglobal & Hfrom1).
    exists h'. split; [exact Hrun|]. split; [exact Hglobal|].
    split; [exact Hfrom1 | exact (Hhere 0)].
  - destruct (AssignVariable_local store2 2%positive middle_scope "m" 5%Z
                store2_middle) as (h' & Hrun & _ & Hframe & Hhere & _).
    exists h'. split; [exact Hrun|]. split; [|exact (Hhere 0)].
    apply Hframe. discriminate.
Defined.

(** ** Function dispatch *)

Lemma f_nearest_from_leaf :
  registered_nearest store3 "f" 3%positive 1 2%positive (UserDef def_f).
Proof.
  eapply registered_up; [apply store3_leaf | reflexivity | reflexivity |].
  eapply registered_here; [apply store3_middle | reflexivity].
Defined.

Lemma h_nearest_from_global :
  registered_nearest store3 "h" 1%positive 0 1%positive (UserDef def_h).
Proof.
  eapply registered_here; [apply store3_global | reflexivity].
Defined.

(** C4: the scan goes from the call site outward.  If the first scope with
    an entry for the name holds a user function, that function is called,
    whatever the global scope holds under the same name.  A native callable
    is run only when the first entry for the name is found at the root; a
    native entry met at a scope that has a parent is not run.  If no scope up
    to the root has an entry, the call fails with [EvaluationError] and a
    message that names the function. *)
Theorem ExecuteFunction_resolution call_native eval h this (name : string)
    (args : list ObjPtr) (fuel k : nat) :
  k < fuel →
  (∀ d def, registered_nearest h name this k d (UserDef def) →
     ExecuteFunction call_native eval fuel this name args h
     = Some (user_call eval this (UserDef def) args h))
  ∧ (∀ d f, registered_nearest h name this k d (Native f) →
       (is_root h d →
        ExecuteFunction call_native eval fuel this name args h
        = Some (call_native f args h))
       ∧ (¬ is_root h d →
          ExecuteFunction call_native eval fuel this name args h
          = Some (Throw bad_variant_access h)))
  ∧ (unregistered h name this k →
     ExecuteFunction call_native eval fuel this name args h
     = Some (Throw (EvaluationError ("function '" ++ name ++ "' not defined!")) h)).
Proof.
  intros Hk. split; [|split].
  - intros d def Hr. by eapply ExecuteFunction_user.
  - intros d f Hr.
    destruct (ExecuteFunction_registered call_native eval h name k d _ this
                args fuel Hr Hk) as (t & Ht & _ & ->).
    unfold dispatch_at. split.
    + intros (t' & Ht' & Hp'). rewrite Ht in Ht'. injection Ht' as <-.
      by rewrite Hp'.
    + intros Hnr. destruct (parent t) eqn:Hp; [done|].
      exfalso. apply Hnr. by exists t.
  - intros Hu. unfold ExecuteFunction.
    by erewrite loop_unregistered.
Qed.

Lemma ExecuteFunction_resolution_witness :
  functions global_scope !! "f" = Some (Native 0)
  ∧ ExecuteFunction native_zero eval_blocks 2 3%positive "f" [5%Z] store3
    = Some (user_call eval_blocks 3%positive (UserDef def_f) [5%Z] store3).
Proof.
  split; [reflexivity|].
  apply (proj1 (ExecuteFunction_resolution native_zero eval_blocks store3
                  3%positive "f" [5%Z] 2 1 ltac:(lia))
               2%positive def_f f_nearest_from_leaf).
Defined.

(** C5: in a user-defined call whose body evaluates to a sequence of values,
    an empty sequence makes the call fail with [EvaluationError], and a
    sequence with a last value [v] makes it return [v] as a single-value
    result (the frame handed to the body being still live, it is deleted). *)
Theorem ExecuteFunction_returns_last call_native eval h this (name : string)
    (args : list ObjPtr) (fuel k : nat) d def ty vs h' :
  registered_nearest h name this k d (UserDef def) → k < fuel →
  length (params def) = length args →
  eval (statements def) (new_addr h) (frame_store this def args h)
  = Ret {| type := ty; data := inr vs |} h' →
  (vs = [] →
   ExecuteFunction call_native eval fuel this name args h
   = Some (Throw (EvaluationError "function didn't return anything") h'))
  ∧ (∀ v, last vs = Some v → is_Some (h' !! new_addr h) →
     ExecuteFunction call_native eval fuel this name args h
     = Some (Ret {| type := kSingle; data := inl v |}
                 (delete (new_addr h) h'))).
Proof.
  intros Hr Hk Hlen Heval.
  rewrite (ExecuteFunction_user call_native eval h name k d def this args fuel Hr Hk).
  rewrite user_call_arity_ok by done. rewrite Heval. simpl. split.
  - by intros ->.
  - intros v Hlast [fr Hfr]. destruct vs as [|v0 vs]; [done|].
    rewrite Hfr. by rewrite (List_last_is_last v0 v vs Hlast).
Qed.

Lemma ExecuteFunction_returns_last_witness :
  ExecuteFunction native_zero eval_blocks 1 1%positive "h" [5%Z; 6%Z] store3
  = Some (Ret {| type := kSingle; data := inl 3%Z |} store3).
Proof.
  rewrite (proj2 (ExecuteFunction_returns_last native_zero eval_blocks store3
                    1%positive "h" [5%Z; 6%Z] 1 0 1%positive def_h kMultiple
                    [1%Z; 2%Z; 3%Z]
                    (frame_store 1%positive def_h [5%Z; 6%Z] store3)
                    h_nearest_from_global ltac:(lia) eq_refl eq_refl)
                 3%Z eq_refl).
  - vm_compute. reflexivity.
  - rewrite frame_store_frame. eauto.
Defined.

(** C6: in a user-defined call the body is evaluated against a new object
    whose [parent] is the scope the call was made on, whichever scope on the
    path holds the definition; this holds for the loop and for the
    recursion, also when the recursion is started at another scope than the
    one it is called on. *)
Theorem call_frame_parent_is_call_site call_native eval h this
    (name : string) (args : list ObjPtr) (fuel k : nat) d def :
  registered_nearest h name this k d (UserDef def) → k < fuel →
  length (params def) = length args →
  h !! new_addr h = None
  ∧ (∃ fr, frame_store this def args h !! new_addr h = Some fr
         ∧ parent fr = Some this)
  ∧ ExecuteFunction call_native eval fuel this name args h
    = Some (return_last (new_addr h)
              (eval (statements def) (new_addr h) (frame_store this def args h)))
  ∧ RecExecuteFunction call_native eval fuel this this name args h
    = Some (return_last (new_addr h)
              (eval (statements def) (new_addr h) (frame_store this def args h)))
  ∧ (∀ node k' d' def',
       registered_nearest h name node k' d' (UserDef def') → k' < fuel →
       length (params def') = length args →
       RecExecuteFunction call_native eval fuel this node name args h
       = Some (return_last (new_addr h)
                 (eval (statements def') (new_addr h)
                       (frame_store this def' args h)))).
Proof.
  intros Hr Hk Hlen. split; [apply new_addr_fresh|]. split; [|split; [|split]].
  - eexists. split; [apply frame_store_frame | done].
  - erewrite ExecuteFunction_user by done. by rewrite user_call_arity_ok.
  - erewrite RecExecuteFunction_user by done. by rewrite user_call_arity_ok.
  - intros node k' d' def' Hr' Hk' Hlen'.
    destruct (Rec_registered call_native eval h name node k' d' _ this args
                fuel Hr' Hk') as (t & _ & _ & ->).
    unfold dispatch_at. destruct (parent t); by rewrite user_call_arity_ok.
Qed.

(** The function [f] is defined in scope 2 and called from scope 3; its body
    reads [l], which only scope 3 binds, and finds it. *)
Lemma call_frame_parent_is_call_site_witness :
  variables middle_scope !! "l" = None
  ∧ ExecuteFunction native_zero eval_blocks 2 3%positive "f" [5%Z] store3
    = Some (Ret {| type := kSingle; data := inl 9%Z |} store3).
Proof.
  split; [reflexivity|].
  destruct (call_frame_parent_is_call_site native_zero eval_blocks store3
              3%positive "f" [5%Z] 2 1 2%positive def_f
              f_nearest_from_leaf ltac:(lia) eq_refl)
    as (_ & _ & Hloop & _).
  rewrite Hloop. vm_compute. reflexivity.
Defined.

(** C7: a user-defined call made with a number of arguments other than the
    number of parameters fails with [EvaluationError]; with the same number
    it binds every parameter to the argument at its position in the new
    frame and evaluates the body there.  The call fails with
    [EvaluationError] exactly when the sizes differ, or the body itself fails
    with [EvaluationError], or the body yields an empty sequence. *)
Theorem user_call_EvaluationError_iff call_native eval h this (name : string)
    (args : list ObjPtr) (fuel k : nat) d def :
  registered_nearest h name this k d (UserDef def) → k < fuel →
  (length (params def) ≠ length args →
   ExecuteFunction call_native eval fuel this name args h
   = Some (Throw (EvaluationError "didn't get expected arguments")
                 (<[new_addr h := empty_table (Some this)]> h)))
  ∧ (length (params def) = length args →
     (∃ fr, frame_store this def args h !! new_addr h = Some fr
          ∧ variables fr = bind_params (params def) args ∅
          ∧ ∀ i p a, params def !! i = Some p → args !! i = Some a →
              (∀ j q, i < j → params def !! j = Some q → vname q ≠ vname p) →
              variables fr !! vname p = Some a)
     ∧ ExecuteFunction call_native eval fuel this name args h
       = Some (return_last (new_addr h)
                 (eval (statements def) (new_addr h)
                       (frame_store this def args h))))
  ∧ ((∃ m h', ExecuteFunction call_native eval fuel this name args h
              = Some (Throw (EvaluationError m) h'))
     ↔ length (params def) ≠ length args
       ∨ (length (params def) = length args
          ∧ ((∃ m h', eval (statements def) (new_addr h)
                           (frame_store this def args h)
                      = Throw (EvaluationError m) h')
             ∨ (∃ ty h', eval (statements def) (new_addr h)
                              (frame_store this def args h)
                         = Ret {| type := ty; data := inr [] |} h')))).
Proof.
  intros Hr Hk.
  rewrite (ExecuteFunction_user call_native eval h name k d def this args fuel Hr Hk).
  split; [|split].
  - intros Hlen. by rewrite user_call_arity_mismatch.
  - intros Hlen. split; [|by rewrite user_call_arity_ok].
    eexists. split; [apply frame_store_frame|]. split; [done|].
    intros i p a Hp Ha Hlater. simpl.
    apply bind_params_lookup with (i := i); [done | done |].
    intros j q Hij _ Hq. by apply (Hlater j q).
  - destruct (decide (length (params def) = length args)) as [Hlen|Hlen].
    + rewrite user_call_arity_ok by done.
      destruct (eval (statements def) (new_addr h) (frame_store this def args h))
        as [r hr | e hr |] eqn:Heval; simpl.
      * destruct r as [ty [v | vs]]; simpl.
        -- split.
           ++ intros (m & h' & Heq). congruence.
           ++ intros [Hne | (_ & [(m & h' & Heq) | (ty' & h' & Heq)])];
                [done | congruence | congruence].
        -- destruct vs as [|v0 vs].
           ++ split; [|eauto]. intros _. right. split; [done|]. right. eauto.
           ++ split.
              ** intros (m & h' & Heq). destruct (hr !! new_addr h); congruence.
              ** intros [Hne | (_ & [(m & h' & Heq) | (ty' & h' & Heq)])];
                   [done | congruence | congruence].
      * split.
        -- intros (m & h' & Heq). right. split; [done|]. left.
           exists m, h'. congruence.
        -- intros [Hne | (_ & [(m & h' & Heq) | (ty' & h' & Heq)])];
             [done | | congruence].
           exists m, h'. congruence.
      * split.
        -- intros (m & h' & Heq). congruence.
        -- intros [Hne | (_ & [(m & h' & Heq) | (ty' & h' & Heq)])];
             [done | congruence | congruence].
    + rewrite user_call_arity_mismatch by done. split; [by left | eauto].
Qed.

(** The function [h] has two parameters: one argument is refused, two are
    bound in order, [a] to the first and [b] to the second. *)
Lemma user_call_EvaluationError_iff_witness :
  ExecuteFunction native_zero eval_blocks 1 1%positive "h" [5%Z] store3
  = Some (Throw (EvaluationError "didn't get expected arguments")
                (<[new_addr store3 := empty_table (Some 1%positive)]> store3))
  ∧ (∃ fr, frame_store 1%positive def_h [5%Z; 6%Z] store3 !! new_addr store3
           = Some fr
         ∧ variables fr !! "a" = Some 5%Z ∧ variables fr !! "b" = Some 6%Z).
Proof.
  pose proof (user_call_EvaluationError_iff native_zero eval_blocks store3
                1%positive "h" [5%Z] 1 0 1%positive def_h
                h_nearest_from_global ltac:(lia)) as (Hbad & _ & _).
  pose proof (user_call_EvaluationError_iff native_zero eval_blocks store3
                1%positive "h" [5%Z; 6%Z] 1 0 1%positive def_h
                h_nearest_from_global ltac:(lia)) as (_ & Hgood & _).
  split.
  - apply Hbad. simpl. lia.
  - destruct (Hgood eq_refl) as ((fr & Hfr & Hvars & _) & _).
    exists fr. split; [exact Hfr|]. rewrite Hvars.
    split; vm_compute; reflexivity.
Defined.

(** C9: the frame of a user-defined call is to be released on every exit
    path.  In [store2], calling [h] (two parameters) with one argument, or
    calling [e] (whose body yields no value), throws [EvaluationError] and
    leaves the frame allocated for the call live in the store; only the call
    that returns a value deletes its frame. *)
Theorem ExecuteFunction_error_paths_keep_frame :
  store2 !! new_addr store2 = None
  ∧ (∃ h', ExecuteFunction native_zero eval_blocks 1 1%positive "h" [5%Z] store2
           = Some (Throw (EvaluationError "didn't get expected arguments") h')
         ∧ h' !! new_addr store2 = Some (empty_table (Some 1%positive)))
  ∧ (∃ h', ExecuteFunction native_zero eval_blocks 1 1%positive "e" [] store2
           = Some (Throw (EvaluationError "function didn't return anything") h')
         ∧ h' !! new_addr store2 = Some (empty_table (Some 1%positive)))
  ∧ (∃ r h', ExecuteFunction native_zero eval_blocks 1 1%positive "h"
               [5%Z; 6%Z] store2
             = Some (Ret r h')
           ∧ h' !! new_addr store2 = None).
Proof.
  split; [apply new_addr_fresh|]. split; [|split].
  - eexists. split; [vm_compute; reflexivity|]. vm_compute. reflexivity.
  - eexists. split; [vm_compute; reflexivity|]. vm_compute. reflexivity.
  - eexists _, _. split; [vm_compute; reflexivity|]. vm_compute. reflexivity.
Qed.





(** ** Further properties of lookup and assignment *)

Lemma bound_nearest_depth h n l name k d v :
  chain h n l → bound_nearest h name n k d v → k < length l.
Proof.
  intros Hc. revert k d v.
  induction Hc as [n t Ht Hp | n t p l Ht Hp _ IH]; intros k d v Hb.
  - inversion Hb as [? t' ? Ht' Hv | ? t' p' k' ? ? Ht' Hv Hp' Hb']; subst;
      [simpl; lia | congruence].
  - inversion Hb as [? t' ? Ht' Hv | ? t' p' k' ? ? Ht' Hv Hp' Hb']; subst;
      [simpl; lia|].
    assert (p' = p) as -> by congruence.
    apply IH in Hb'. simpl. lia.
Qed.

Lemma unbound_depth h n l name k :
  chain h n l → unbound h name n k → k < length l.
Proof.
  intros Hc. revert k.
  induction Hc as [n t Ht Hp | n t p l Ht Hp _ IH]; intros k Hu.
  - inversion Hu as [? t' Ht' Hv Hp' | ? t' p' k' Ht' Hv Hp' Hu']; subst;
      [simpl; lia | congruence].
  - inversion Hu as [? t' Ht' Hv Hp' | ? t' p' k' Ht' Hv Hp' Hu']; subst;
      [simpl; lia|].
    assert (p' = p) as -> by congruence.
    apply IH in Hu'. simpl. lia.
Qed.

(** X1: on a finite chain, within as many steps as the chain has scopes,
    [RecFindVariable] returns the binding of the nearest scope that binds the
    name, throws [UndeclaredVariableError] when no scope of the chain binds
    it, and one of the two is the case; the store is left as it was. *)
Theorem RecFindVariable_nearest_binding h n l (name : string) (fuel : nat) :
  chain h n l → length l ≤ fuel →
  (∀ k d v, bound_nearest h name n k d v →
     RecFindVariable fuel n name h = Some (Ret v h))
  ∧ (∀ k, unbound h name n k →
       RecFindVariable fuel n name h
       = Some (Throw (UndeclaredVariableError name) h))
  ∧ ((∃ k d v, bound_nearest h name n k d v) ∨ (∃ k, unbound h name n k)).
Proof.
  intros Hc Hfuel. split; [|split].
  - intros k d v Hb. eapply RecFindVariable_bound; [done|].
    pose proof (bound_nearest_depth h n l name k d v Hc Hb). lia.
  - intros k Hu. eapply RecFindVariable_unbound; [done|].
    pose proof (unbound_depth h n l name k Hc Hu). lia.
  - destruct (chain_bound_or_unbound h n l name Hc)
      as [(k & d & v & _ & Hb) | (k & _ & Hu)]; eauto.
Qed.

Lemma g_bound_from_leaf : bound_nearest store3 "g" 3%positive 2 1%positive 7%Z.
Proof.
  eapply bound_up; [apply store3_leaf | reflexivity | reflexivity |].
  eapply bound_up; [apply store3_middle | reflexivity | reflexivity |].
  eapply bound_here; [apply store3_global | reflexivity].
Defined.

Lemma RecFindVariable_nearest_binding_witness :
  RecFindVariable 3 3%positive "g" store3 = Some (Ret 7%Z store3).
Proof.
  apply (proj1 (RecFindVariable_nearest_binding store3 3%positive
                  [3; 2; 1]%positive "g" 3 chain_store3 ltac:(simpl; lia))
               2 1%positive 7%Z g_bound_from_leaf).
Defined.

(** X2: when the name is bound in the current scope or in its parent, or the
    current scope is a root that does not bind it, [FindVariable] gives the
    answer of [RecFindVariable]: the binding, or [UndeclaredVariableError]. *)
Theorem FindVariable_agrees_near h this (name : string) (fuel : nat) :
  2 ≤ fuel →
  (∀ k d v, bound_nearest h name this k d v → k ≤ 1 →
     FindVariable fuel this name h = Some (Ret v h)
     ∧ RecFindVariable fuel this name h = Some (Ret v h))
  ∧ (unbound h name this 0 →
     FindVariable fuel this name h
     = Some (Throw (UndeclaredVariableError name) h)
     ∧ RecFindVariable fuel this name h
       = Some (Throw (UndeclaredVariableError name) h)).
Proof.
  intros Hfuel. split.
  - intros k d v Hb Hk. by eapply FindVariable_shallow.
  - intros Hu. split; [|eapply RecFindVariable_unbound; [done | lia]].
    destruct fuel as [|[|fuel]]; [lia | lia |].
    inversion Hu as [? t Ht Hv Hp | ]; subst.
    by eapply FindVariable_root_unbound.
Qed.

Lemma FindVariable_agrees_near_witness :
  FindVariable 2 3%positive "m" store3 = Some (Ret 8%Z store3)
  ∧ FindVariable 2 1%positive "y" store3
    = Some (Throw (UndeclaredVariableError "y") store3).
Proof.
  pose proof (FindVariable_agrees_near store3 3%positive "m" 2 ltac:(lia))
    as (Hbound & _).
  pose proof (FindVariable_agrees_near store3 1%positive "y" 2 ltac:(lia))
    as (_ & Hunbound).
  split.
  - apply (Hbound 1 2%positive 8%Z); [|lia].
    eapply bound_up; [apply store3_leaf | reflexivity | reflexivity |].
    eapply bound_here; [apply store3_middle | reflexivity].
  - apply Hunbound.
    eapply unbound_root; [apply store3_global | reflexivity | reflexivity].
Defined.

Lemma store_variable_dead n k v h :
  h !! n = None → store_variable n k v h !! n = None.
Proof.
  intros Hn. unfold store_variable. by rewrite lookup_alter_eq, Hn.
Qed.

Lemma store_variable_RecFindVariable this name obj h (y : string) :
  y ≠ name → ∀ fuel n,
  RecFindVariable fuel n y (store_variable this name obj h)
  = set_store (store_variable this name obj h) <$> RecFindVariable fuel n y h.
Proof.
  intros Hy. induction fuel as [|fuel IH]; intros n; [done|]. simpl.
  destruct (decide (n = this)) as [->|Hn].
  - destruct (h !! this) as [t|] eqn:Ht.
    + rewrite (store_variable_same this name obj h t Ht). simpl.
      rewrite lookup_insert_ne by done.
      destruct (variables t !! y); [done|].
      destruct (parent t); [apply IH | done].
    + by rewrite store_variable_dead.
  - rewrite store_variable_other by done.
    destruct (h !! n) as [t|]; [|done].
    destruct (variables t !! y); [done|].
    destruct (parent t); [apply IH | done].
Qed.

Lemma store_variable_FindVariable_loop this name obj h (y : string) this0 :
  y ≠ name → ∀ fuel node,
  FindVariable_loop fuel this0 node y (store_variable this name obj h)
  = set_store (store_variable this name obj h)
      <$> FindVariable_loop fuel this0 node y h.
Proof.
  intros Hy.
  assert (Hpar : ∀ a,
    match store_variable this name obj h !! a, h !! a with
    | Some t', Some t => parent t' = parent t
                         ∧ variables t' !! y = variables t !! y
    | None, None => True
    | _, _ => False
    end).
  { intros a. destruct (decide (a = this)) as [->|Ha].
    - destruct (h !! this) as [t|] eqn:Ht.
      + rewrite (store_variable_same this name obj h t Ht). simpl.
        by rewrite lookup_insert_ne.
      + by rewrite store_variable_dead.
    - rewrite store_variable_other by done. by destruct (h !! a). }
  induction fuel as [|fuel IH]; intros node; [done|]. simpl.
  destruct node as [n|]; [|done].
  pose proof (Hpar n) as Hn.
  destruct (store_variable this name obj h !! n) as [t'|], (h !! n) as [t|];
    try done.
  destruct Hn as [_ ->]. destruct (variables t !! y); [done|].
  pose proof (Hpar this0) as H0.
  destruct (store_variable this name obj h !! this0) as [t0'|],
           (h !! this0) as [t0|]; try done.
  destruct H0 as [-> _]. apply IH.
Qed.

(** X3: assigning [name] changes no lookup of another name: from every
    scope, [RecFindVariable] and [FindVariable] of [y ≠ name] give after the
    assignment what they gave before. *)
Theorem AssignVariable_other_names this (name : string) obj h t (y : string) :
  h !! this = Some t → y ≠ name →
  ∃ h', AssignVariable this name obj h = Ret tt h'
      ∧ ∀ fuel n,
          RecFindVariable fuel n y h' = set_store h' <$> RecFindVariable fuel n y h
          ∧ FindVariable fuel n y h' = set_store h' <$> FindVariable fuel n y h.
Proof.
  intros Ht Hy. exists (store_variable this name obj h).
  unfold AssignVariable. rewrite Ht. split; [done|].
  intros fuel n. split.
  - by apply store_variable_RecFindVariable.
  - unfold FindVariable. by apply store_variable_FindVariable_loop.
Qed.

Lemma AssignVariable_other_names_witness :
  ∃ h', AssignVariable 2%positive "z" 5%Z store2 = Ret tt h'
      ∧ RecFindVariable 2 2%positive "g" h' = Some (Ret 7%Z h').
Proof.
  destruct (AssignVariable_other_names 2%positive "z" 5%Z store2 middle_scope
              "g" store2_middle ltac:(discriminate))
    as (h' & Hrun & Hsame).
  exists h'. split; [exact Hrun|].
  rewrite (proj1 (Hsame 2 2%positive)). vm_compute. reflexivity.
Defined.

Lemma store_variable_twice n k v1 v2 h :
  store_variable n k v2 (store_variable n k v1 h) = store_variable n k v2 h.
Proof.
  apply map_eq. intros a. destruct (decide (a = n)) as [->|Ha].
  - destruct (h !! n) as [t|] eqn:Ht.
    + rewrite (store_variable_same n k v2 _ _ (store_variable_same n k v1 h t Ht)).
      rewrite (store_variable_same n k v2 h t Ht). simpl.
      by rewrite insert_insert_eq.
    + by rewrite !store_variable_dead by (by rewrite ?store_variable_dead).
  - by rewrite !store_variable_other.
Qed.

(** X4: a value assigned to [name] in a live scope is what lookups of [name]
    from that scope return, whatever the enclosing scopes bind; assigning the
    name again replaces the value, leaving the store that the second
    assignment alone would have left. *)
Theorem AssignVariable_read_back this (name : string) obj h t :
  h !! this = Some t →
  ∃ h', AssignVariable this name obj h = Ret tt h'
      ∧ (∀ fuel, FindVariable (S fuel) this name h' = Some (Ret obj h')
               ∧ RecFindVariable (S fuel) this name h' = Some (Ret obj h'))
      ∧ (∀ obj2, AssignVariable this name obj2 h'
                 = AssignVariable this name obj2 h).
Proof.
  intros Ht. exists (store_variable this name obj h).
  pose proof (store_variable_same this name obj h t Ht) as Hnew.
  unfold AssignVariable. rewrite Ht. split; [done|]. split.
  - intros fuel. split.
    + eapply FindVariable_here; [exact Hnew|]. apply lookup_insert_eq.
    + simpl. rewrite Hnew. simpl. by rewrite lookup_insert_eq.
  - intros obj2. rewrite Hnew. by rewrite store_variable_twice.
Qed.

Lemma AssignVariable_read_back_witness :
  ∃ h', AssignVariable 2%positive "g" 5%Z store2 = Ret tt h'
      ∧ RecFindVariable 1 2%positive "g" h' = Some (Ret 5%Z h').
Proof.
  destruct (AssignVariable_read_back 2%positive "g" 5%Z store2 middle_scope
              store2_middle) as (h' & Hrun & Hread & _).
  exists h'. split; [exact Hrun | apply (Hread 0)].
Defined.

(** ** Further properties of dispatch *)

Lemma loop_eq_Rec call_native eval this (name : string) (args : list ObjPtr)
    h (fuel : nat) (n : addr) :
  match ExecuteFunction_loop call_native eval fuel this (Some n) name args h with
  | None => None
  | Some (Exit r) => Some r
  | Some LoopEnd =>
    Some (Throw (EvaluationError "did not expect to get here in execution stack") h)
  end
  = RecExecuteFunction call_native eval fuel this n name args h.
Proof.
  revert n. induction fuel as [|fuel IH]; intros n; [done|]. simpl.
  destruct (h !! n) as [t|]; [|done].
  destruct (root_check call_native t name args h) as [r|] eqn:Hroot; [done|].
  destruct (functions t !! name) as [fv|] eqn:Hf; [done|].
  destruct (parent t) as [p|] eqn:Hp; [apply IH|].
  unfold root_check in Hroot. by rewrite Hp, Hf in Hroot.
Qed.

(** X5: the loop and the recursion of function dispatch agree on every
    store, name and argument list, at every step budget: the same result, the
    same exception, the same store, or both still running. *)
Theorem ExecuteFunction_eq_RecExecuteFunction call_native eval this
    (name : string) (args : list ObjPtr) h (fuel : nat) :
  ExecuteFunction call_native eval fuel this name args h
  = RecExecuteFunction call_native eval fuel this this name args h.
Proof. unfold ExecuteFunction. apply loop_eq_Rec. Qed.

(** X6: a function created in a live scope is the one a call of that name
    made on that scope runs, whatever the scope and its ancestors held under
    the name before (a native callable at the root included); the creation
    touches no other object, and in the scope itself neither the variables
    nor the parent link nor the entries of other names. *)
Theorem CreateFunction_then_call call_native eval this (name : string)
    (ps : list VariableNode) (body : CompoundNode) h t :
  h !! this = Some t →
  ∃ h' t', CreateFunction this name ps body h = Ret tt h'
      ∧ h' !! this = Some t'
      ∧ variables t' = variables t ∧ parent t' = parent t
      ∧ (∀ g, g ≠ name → functions t' !! g = functions t !! g)
      ∧ (∀ a, a ≠ this → h' !! a = h !! a)
      ∧ ∀ fuel args,
          ExecuteFunction call_native eval (S fuel) this name args h'
          = Some (user_call eval this
                    (UserDef {| statements := body; params := ps |}) args h').
Proof.
  intros Ht. unfold CreateFunction. rewrite Ht. eexists _, _.
  split; [done|]. split; [apply lookup_insert_eq|].
  split; [done|]. split; [done|]. split; [|split].
  - intros g Hg. simpl. by rewrite lookup_insert_ne.
  - intros a Ha. by rewrite lookup_insert_ne.
  - intros fuel args. eapply ExecuteFunction_user with (k := 0); [|lia].
    eapply registered_here; [apply lookup_insert_eq|].
    simpl. apply lookup_insert_eq.
Qed.

(** At the root, [f] is a native callable; once [f] is created there as a
    user function with no parameter and the empty block, a call of [f] runs
    the block and fails on its empty result. *)
Lemma CreateFunction_then_call_witness :
  functions global_scope !! "f" = Some (Native 0)
  ∧ ∃ h', CreateFunction 1%positive "f" [] 0 store2 = Ret tt h'
        ∧ ∃ h'', ExecuteFunction native_zero eval_blocks 1 1%positive "f" [] h'
                 = Some (Throw (EvaluationError "function didn't return anything")
                               h'').
Proof.
  split; [reflexivity|].
  destruct (CreateFunction_then_call native_zero eval_blocks 1%positive "f" []
              0 store2 global_scope store2_global)
    as (h' & t' & Hrun & _ & _ & _ & _ & _ & Hcall).
  exists h'. split; [exact Hrun|].
  rewrite (Hcall 0 []). injection Hrun as <-.
  eexists. vm_compute. reflexivity.
Defined.

Lemma CreateFunction_lookup_facts this (name : string) ps body h t :
  h !! this = Some t →
  ∃ h', CreateFunction this name ps body h = Ret tt h'
      ∧ ∀ a, match h' !! a, h !! a with
             | Some t', Some t0 => parent t' = parent t0
                                   ∧ variables t' = variables t0
             | None, None => True
             | _, _ => False
             end.
Proof.
  intros Ht. unfold CreateFunction. rewrite Ht. eexists. split; [done|].
  intros a. destruct (decide (a = this)) as [->|Ha].
  - rewrite lookup_insert_eq, Ht. done.
  - rewrite lookup_insert_ne by done. by destruct (h !! a).
Qed.

Lemma same_variables_RecFindVariable (h h' : gmap addr SymTable) (y : string) :
  (∀ a, match h' !! a, h !! a with
        | Some t', Some t0 => parent t' = parent t0
                              ∧ variables t' = variables t0
        | None, None => True
        | _, _ => False
        end) →
  ∀ fuel n, RecFindVariable fuel n y h' = set_store h' <$> RecFindVariable fuel n y h.
Proof.
  intros Hsame. induction fuel as [|fuel IH]; intros n; [done|]. simpl.
  pose proof (Hsame n) as Hn.
  destruct (h' !! n) as [t'|], (h !! n) as [t|]; try done.
  destruct Hn as [-> ->]. destruct (variables t !! y); [done|].
  destruct (parent t); [apply IH | done].
Qed.

Lemma same_variables_chain (h h' : gmap addr SymTable) n l :
  (∀ a, match h' !! a, h !! a with
        | Some t', Some t0 => parent t' = parent t0
                              ∧ variables t' = variables t0
        | None, None => True
        | _, _ => False
        end) →
  chain h n l → chain h' n l.
Proof.
  intros Hsame. induction 1 as [n t Ht Hp | n t p l Ht Hp _ IH].
  - pose proof (Hsame n) as Hn. rewrite Ht in Hn.
    destruct (h' !! n) as [t'|] eqn:Ht'; [|done]. destruct Hn as [Hpar _].
    eapply chain_root; [done | congruence].
  - pose proof (Hsame n) as Hn. rewrite Ht in Hn.
    destruct (h' !! n) as [t'|] eqn:Ht'; [|done]. destruct Hn as [Hpar _].
    apply (chain_step h' n t' p l Ht'); [congruence | exact IH].
Qed.

(** X7: creating a function changes no variable lookup and no scope chain:
    from every scope [RecFindVariable] gives what it gave before, and every
    finite chain of scopes is still the same chain.  Creating the name again
    in the same scope leaves the store that the second creation alone would
    have left. *)
Theorem CreateFunction_keeps_variables this (name : string) ps body h t :
  h !! this = Some t →
  ∃ h', CreateFunction this name ps body h = Ret tt h'
      ∧ (∀ (y : string) fuel n,
           RecFindVariable fuel n y h' = set_store h' <$> RecFindVariable fuel n y h)
      ∧ (∀ n l, chain h n l → chain h' n l)
      ∧ (∀ ps2 body2, CreateFunction this name ps2 body2 h'
                      = CreateFunction this name ps2 body2 h).
Proof.
  intros Ht.
  destruct (CreateFunction_lookup_facts this name ps body h t Ht)
    as (h' & Hrun & Hsame).
  exists h'. split; [done|]. split; [|split].
  - intros y. by apply same_variables_RecFindVariable.
  - intros n l. by apply same_variables_chain.
  - intros ps2 body2. unfold CreateFunction in *. rewrite Ht in *.
    injection Hrun as <-. rewrite lookup_insert_eq. simpl.
    by rewrite insert_insert_eq, insert_insert_eq.
Qed.

Lemma CreateFunction_keeps_variables_witness :
  ∃ h', CreateFunction 2%positive "k" [] 1 store2 = Ret tt h'
      ∧ RecFindVariable 2 2%positive "g" h' = Some (Ret 7%Z h')
      ∧ chain h' 2%positive [2; 1]%positive.
Proof.
  destruct (CreateFunction_keeps_variables 2%positive "k" [] 1 store2
              middle_scope store2_middle) as (h' & Hrun & Hvars & Hchain & _).
  exists h'. split; [exact Hrun|]. split.
  - rewrite Hvars. vm_compute. reflexivity.
  - apply Hchain. exact chain_store2.
Defined.

(** X8: [ConstructGlobalTable] yields an object that was not live before and
    leaves every other object as it was; the new object is a root that binds
    no variable and holds no function, native or not: every variable lookup
    on it throws [UndeclaredVariableError] and every call made on it throws
    [EvaluationError] for an undefined function. *)
Theorem ConstructGlobalTable_empty_root call_native eval h :
  h !! fst (ConstructGlobalTable h) = None
  ∧ (∀ a, a ≠ fst (ConstructGlobalTable h) →
          snd (ConstructGlobalTable h) !! a = h !! a)
  ∧ chain (snd (ConstructGlobalTable h)) (fst (ConstructGlobalTable h))
          [fst (ConstructGlobalTable h)]
  ∧ ∀ (name : string) fuel,
      FindVariable (S (S fuel)) (fst (ConstructGlobalTable h)) name
                   (snd (ConstructGlobalTable h))
      = Some (Throw (UndeclaredVariableError name) (snd (ConstructGlobalTable h)))
      ∧ RecFindVariable (S fuel) (fst (ConstructGlobalTable h)) name
                        (snd (ConstructGlobalTable h))
        = Some (Throw (UndeclaredVariableError name)
                      (snd (ConstructGlobalTable h)))
      ∧ ∀ args,
          ExecuteFunction call_native eval (S fuel) (fst (ConstructGlobalTable h))
                          name args (snd (ConstructGlobalTable h))
          = Some (Throw (EvaluationError ("function '" ++ name ++ "' not defined!"))
                        (snd (ConstructGlobalTable h))).
Proof.
  unfold ConstructGlobalTable. cbn [fst snd].
  assert (Hnew : <[new_addr h := empty_table None]> h !! new_addr h
                 = Some (empty_table None)) by apply lookup_insert_eq.
  split; [apply new_addr_fresh|]. split; [|split].
  - intros a Ha. by rewrite lookup_insert_ne.
  - eapply chain_root; [exact Hnew | done].
  - intros name fuel. split; [|split].
    + eapply FindVariable_root_unbound; [exact Hnew | done | done].
    + eapply RecFindVariable_unbound with (k := 0); [|lia].
      eapply unbound_root; [exact Hnew | done | done].
    + intros args. unfold ExecuteFunction.
      erewrite loop_unregistered with (k := 0); [done | | lia].
      eapply unregistered_root; [exact Hnew | done | done].
Qed.

(** ** The user-defined call, seen from the caller and from the body *)

Lemma last_List_last {A} (v0 : A) (vs : list A) :
  last (v0 :: vs) = Some (List.last vs v0).
Proof.
  revert v0. induction vs as [|v1 vs IH]; intros v0; [done|].
  rewrite last_cons_cons, List_last_cons. apply IH.
Qed.

Lemma delete_frame_restores (h hb : gmap addr SymTable) :
  (∀ a, a ≠ new_addr h → hb !! a = h !! a) → delete (new_addr h) hb = h.
Proof.
  intros Hsame. apply map_eq. intros a.
  destruct (decide (a = new_addr h)) as [->|Ha].
  - by rewrite lookup_delete_eq, new_addr_fresh.
  - rewrite lookup_delete_ne by done. by apply Hsame.
Qed.

(** X9: when the body of a user-defined call yields a sequence with a last
    value and leaves every object other than its frame as it was, the call
    returns that value and the store the call was made in: no parameter
    binding and nothing else the body put in its frame outlives the call. *)
Theorem ExecuteFunction_restores_store call_native eval h this (name : string)
    (args : list ObjPtr) (fuel k : nat) d def ty vs v hb :
  registered_nearest h name this k d (UserDef def) → k < fuel →
  length (params def) = length args →
  eval (statements def) (new_addr h) (frame_store this def args h)
  = Ret {| type := ty; data := inr vs |} hb →
  is_Some (hb !! new_addr h) →
  (∀ a, a ≠ new_addr h → hb !! a = h !! a) →
  last vs = Some v →
  ExecuteFunction call_native eval fuel this name args h
  = Some (Ret {| type := kSingle; data := inl v |} h).
Proof.
  intros Hr Hk Hlen Heval [fr Hfr] Hsame Hlast.
  rewrite (ExecuteFunction_user call_native eval h name k d def this args fuel Hr Hk).
  rewrite user_call_arity_ok by done. rewrite Heval. simpl.
  destruct vs as [|v0 vs]; [done|]. rewrite Hfr.
  rewrite (List_last_is_last v0 v vs Hlast).
  by rewrite delete_frame_restores.
Qed.

Lemma ExecuteFunction_restores_store_witness :
  ExecuteFunction native_zero eval_blocks 2 3%positive "f" [5%Z] store3
  = Some (Ret {| type := kSingle; data := inl 9%Z |} store3).
Proof.
  apply (ExecuteFunction_restores_store native_zero eval_blocks store3
           3%positive "f" [5%Z] 2 1 2%positive def_f kMultiple [9%Z] 9%Z
           (frame_store 3%positive def_f [5%Z] store3)
           f_nearest_from_leaf ltac:(lia) eq_refl).
  - vm_compute. reflexivity.
  - rewrite frame_store_frame. eauto.
  - intros a Ha. by apply frame_store_other.
  - reflexivity.
Defined.

(** X10: in a user-defined call, an exception thrown by the body leaves the
    call unchanged, with the store the body left; a body result that holds a
    single value instead of a sequence makes the call throw
    [bad_variant_access].  In both cases the call itself deletes nothing. *)
Theorem ExecuteFunction_body_failure call_native eval h this (name : string)
    (args : list ObjPtr) (fuel k : nat) d def :
  registered_nearest h name this k d (UserDef def) → k < fuel →
  length (params def) = length args →
  (∀ e hb,
     eval (statements def) (new_addr h) (frame_store this def args h)
     = Throw e hb →
     ExecuteFunction call_native eval fuel this name args h = Some (Throw e hb))
  ∧ (∀ ty v hb,
       eval (statements def) (new_addr h) (frame_store this def args h)
       = Ret {| type := ty; data := inl v |} hb →
       ExecuteFunction call_native eval fuel this name args h
       = Some (Throw bad_variant_access hb)).
Proof.
  intros Hr Hk Hlen.
  rewrite (ExecuteFunction_user call_native eval h name k d def this args fuel Hr Hk).
  rewrite user_call_arity_ok by done.
  split; [intros e hb -> | intros ty v hb ->]; done.
Qed.

Lemma ExecuteFunction_body_failure_witness :
  ExecuteFunction native_zero
    (λ _ _ hb, Throw (UndeclaredVariableError "q") hb) 1 1%positive "h"
    [5%Z; 6%Z] store3
  = Some (Throw (UndeclaredVariableError "q")
                (frame_store 1%positive def_h [5%Z; 6%Z] store3))
  ∧ is_Some (frame_store 1%positive def_h [5%Z; 6%Z] store3 !! new_addr store3).
Proof.
  split.
  - apply (proj1 (ExecuteFunction_body_failure native_zero
                    (λ _ _ hb, Throw (UndeclaredVariableError "q") hb)
                    store3 1%positive "h" [5%Z; 6%Z] 1 0 1%positive def_h
                    h_nearest_from_global ltac:(lia) eq_refl)).
    reflexivity.
  - rewrite frame_store_frame. eauto.
Defined.

(** X11: whenever a user-defined call returns, the sizes of the parameter
    and argument lists were equal, the body yielded a non-empty sequence, and
    the result is the last value of that sequence tagged [kSingle]; the store
    returned is the one the body left, minus the frame, whose address is
    live no more. *)
Theorem user_call_result_shape call_native eval h this (name : string)
    (args : list ObjPtr) (fuel k : nat) d def r h' :
  registered_nearest h name this k d (UserDef def) → k < fuel →
  ExecuteFunction call_native eval fuel this name args h = Some (Ret r h') →
  length (params def) = length args
  ∧ type r = kSingle
  ∧ h' !! new_addr h = None
  ∧ ∃ ty vs v hb,
      eval (statements def) (new_addr h) (frame_store this def args h)
      = Ret {| type := ty; data := inr vs |} hb
      ∧ last vs = Some v ∧ data r = inl v
      ∧ is_Some (hb !! new_addr h) ∧ h' = delete (new_addr h) hb.
Proof.
  intros Hr Hk.
  rewrite (ExecuteFunction_user call_native eval h name k d def this args fuel Hr Hk).
  destruct (decide (length (params def) = length args)) as [Hlen|Hlen];
    [|by rewrite user_call_arity_mismatch].
  rewrite user_call_arity_ok by done.
  destruct (eval (statements def) (new_addr h) (frame_store this def args h))
    as [[ty [v | [|v0 vs]]] hb | e hb |] eqn:Heval; simpl; try done.
  destruct (hb !! new_addr h) as [fr|] eqn:Hfr; [|done].
  intros [= <- <-]. split; [done|]. split; [done|].
  split; [apply lookup_delete_eq|].
  exists ty, (v0 :: vs), (List.last vs v0), hb.
  split; [done|]. split; [apply last_List_last|]. by eauto.
Qed.

Lemma user_call_result_shape_witness :
  last [1%Z; 2%Z; 3%Z] = Some 3%Z
  ∧ ∃ vs v, eval_blocks 1 (new_addr store3)
              (frame_store 1%positive def_h [5%Z; 6%Z] store3)
            = Ret {| type := kMultiple; data := inr vs |}
                  (frame_store 1%positive def_h [5%Z; 6%Z] store3)
          ∧ last vs = Some v ∧ v = 3%Z.
Proof.
  split; [reflexivity|].
  destruct (user_call_result_shape native_zero eval_blocks store3 1%positive
              "h" [5%Z; 6%Z] 1 0 1%positive def_h
              {| type := kSingle; data := inl 3%Z |} store3
              h_nearest_from_global ltac:(lia) ltac:(vm_compute; reflexivity))
    as (_ & _ & _ & ty & vs & v & hb & Heval & Hlast & Hdata & _ & _).
  simpl in Heval. injection Heval as <- <- <-.
  exists [1%Z; 2%Z; 3%Z], v. split; [reflexivity|]. split; [exact Hlast|].
  simpl in Hdata. congruence.
Defined.

Lemma chain_frame_store this def args h n l :
  chain h n l → chain (frame_store this def args h) n l.
Proof.
  induction 1 as [n t Ht Hp | n t p l Ht Hp _ IH].
  - eapply chain_root; [|done]. rewrite frame_store_other; [done|].
    intros ->. by rewrite new_addr_fresh in Ht.
  - eapply chain_step; [|done|done]. rewrite frame_store_other; [done|].
    intros ->. by rewrite new_addr_fresh in Ht.
Qed.

Lemma bound_nearest_frame_store this def args h (y : string) n k d v :
  bound_nearest h y n k d v →
  bound_nearest (frame_store this def args h) y n k d v.
Proof.
  induction 1 as [n t v Ht Hv | n t p k d v Ht Hv Hp _ IH].
  - eapply bound_here; [|done]. rewrite frame_store_other; [done|].
    intros ->. by rewrite new_addr_fresh in Ht.
  - eapply bound_up; [|done|done|done]. rewrite frame_store_other; [done|].
    intros ->. by rewrite new_addr_fresh in Ht.
Qed.

Lemma unbound_frame_store this def args h (y : string) n k :
  unbound h y n k → unbound (frame_store this def args h) y n k.
Proof.
  induction 1 as [n t Ht Hv Hp | n t p k Ht Hv Hp _ IH].
  - eapply unbound_root; [|done|done]. rewrite frame_store_other; [done|].
    intros ->. by rewrite new_addr_fresh in Ht.
  - eapply unbound_up; [|done|done|done]. rewrite frame_store_other; [done|].
    intros ->. by rewrite new_addr_fresh in Ht.
Qed.

Lemma bind_params_not_param ps args (y : string) :
  (∀ q, q ∈ ps → vname q ≠ y) →
  bind_params ps args ∅ !! y = None.
Proof.
  intros Hps. unfold bind_params. rewrite foldl_insert_other; [done|].
  intros j q b Hj. apply Hps.
  apply lookup_zip_Some in Hj as [Hq _]. by eapply list_elem_of_lookup_2.
Qed.

(** X12: what the body of a user-defined call sees from its frame.  The
    frame sits on top of the chain of the scope the call was made on.  A
    parameter is found with the argument at its position (no later parameter
    having its name), whatever the enclosing scopes bind under that name.  A
    name that is no parameter resolves, by [RecFindVariable], as it does from
    the scope the call was made on: to the nearest binding, or to
    [UndeclaredVariableError]. *)
Theorem frame_lookup this def (args : list ObjPtr) h l :
  chain h this l →
  chain (frame_store this def args h) (new_addr h) (new_addr h :: l)
  ∧ (∀ i p a, params def !! i = Some p → args !! i = Some a →
       (∀ j q, i < j → params def !! j = Some q → vname q ≠ vname p) →
       ∀ fuel,
         FindVariable (S fuel) (new_addr h) (vname p) (frame_store this def args h)
         = Some (Ret a (frame_store this def args h))
         ∧ RecFindVariable (S fuel) (new_addr h) (vname p)
                           (frame_store this def args h)
           = Some (Ret a (frame_store this def args h)))
  ∧ (∀ (y : string), (∀ q, q ∈ params def → vname q ≠ y) →
       (∀ k d v fuel, bound_nearest h y this k d v → S k < fuel →
          RecFindVariable fuel (new_addr h) y (frame_store this def args h)
          = Some (Ret v (frame_store this def args h)))
       ∧ (∀ k fuel, unbound h y this k → S k < fuel →
            RecFindVariable fuel (new_addr h) y (frame_store this def args h)
            = Some (Throw (UndeclaredVariableError y)
                          (frame_store this def args h)))).
Proof.
  intros Hc. pose proof (frame_store_frame this def args h) as Hfr.
  split; [|split].
  - eapply chain_step; [exact Hfr | done | by apply chain_frame_store].
  - intros i p a Hp Ha Hlater fuel.
    assert (Hbound : bind_params (params def) args ∅ !! vname p = Some a).
    { apply bind_params_lookup with (i := i); [done | done |].
      intros j q Hij _ Hq. by apply (Hlater j q). }
    split.
    + eapply FindVariable_here; [exact Hfr | exact Hbound].
    + eapply RecFindVariable_bound with (k := 0); [|lia].
      eapply bound_here; [exact Hfr | exact Hbound].
  - intros y Hy.
    pose proof (bind_params_not_param (params def) args y Hy) as Hnone.
    split.
    + intros k d v fuel Hb Hfuel.
      eapply RecFindVariable_bound with (k := S k); [|lia].
      eapply bound_up; [exact Hfr | exact Hnone | done |].
      by apply bound_nearest_frame_store.
    + intros k fuel Hu Hfuel.
      eapply RecFindVariable_unbound with (k := S k); [|lia].
      eapply unbound_up; [exact Hfr | exact Hnone | done |].
      by apply unbound_frame_store.
Qed.

(** Called from scope 3 with its parameter [a] bound to 5, the body of [f]
    finds [a] in its frame and [g] three scopes up, in the global scope. *)
Lemma frame_lookup_witness :
  RecFindVariable 1 (new_addr store3) "a" (frame_store 3%positive def_f [5%Z] store3)
  = Some (Ret 5%Z (frame_store 3%positive def_f [5%Z] store3))
  ∧ RecFindVariable 4 (new_addr store3) "g"
                    (frame_store 3%positive def_f [5%Z] store3)
    = Some (Ret 7%Z (frame_store 3%positive def_f [5%Z] store3)).
Proof.
  destruct (frame_lookup 3%positive def_f [5%Z] store3 [3; 2; 1]%positive
              chain_store3) as (_ & Hparam & Houter).
  split.
  - apply (Hparam 0 {| vname := "a" |} 5%Z eq_refl eq_refl).
    intros j q Hj Hq. destruct j as [|[|j]]; [lia | done | done].
  - apply (proj1 (Houter "g" ltac:(intros q Hq;
             apply list_elem_of_singleton in Hq as ->; discriminate))
           2 1%positive 7%Z 4 g_bound_from_leaf ltac:(lia)).
Defined.

(** ** What a change to one scope leaves alone in dispatch *)

(** Two stores resolve a function name alike from [n] when, on the chain of
    [n], they agree on the parent links and on the entry for the name. *)
Lemma registered_nearest_transfer (h h' : gmap addr SymTable) (g : string)
    n l k d fv :
  chain h n l →
  (∀ a t, a ∈ l → h !! a = Some t →
     ∃ t', h' !! a = Some t' ∧ parent t' = parent t
           ∧ functions t' !! g = functions t !! g) →
  registered_nearest h g n k d fv →
  registered_nearest h' g n k d fv
  ∧ ∃ td td', h !! d = Some td ∧ h' !! d = Some td' ∧ parent td' = parent td.
Proof.
  intros Hc. revert k.
  induction Hc as [n t Ht Hp | n t p l Ht Hp Hc IH]; intros k Hsame Hr.
  - destruct (Hsame n t ltac:(by left) Ht) as (t' & Ht' & Hp' & Hf').
    inversion Hr as [? t0 ? Ht0 Hf | ? t0 p0 k0 ? ? Ht0 Hf Hp0 Hr0]; subst;
      [|congruence].
    assert (t0 = t) as -> by congruence. split.
    + eapply registered_here; [done | congruence].
    + by exists t, t'.
  - destruct (Hsame n t ltac:(by left) Ht) as (t' & Ht' & Hp' & Hf').
    inversion Hr as [? t0 ? Ht0 Hf | ? t0 p0 k0 ? ? Ht0 Hf Hp0 Hr0]; subst.
    + assert (t0 = t) as -> by congruence. split.
      * eapply registered_here; [done | congruence].
      * by exists t, t'.
    + assert (t0 = t) as -> by congruence.
      assert (p0 = p) as -> by congruence.
      destruct (IH k0) as (Hr' & Hd); [|done|].
      * intros a ta Ha Hta. apply (Hsame a ta); [by right | done].
      * split; [|done].
        apply (registered_up h' g n t' p k0 d fv Ht');
          [congruence | congruence | exact Hr'].
Qed.

Lemma unregistered_transfer (h h' : gmap addr SymTable) (g : string) n l k :
  chain h n l →
  (∀ a t, a ∈ l → h !! a = Some t →
     ∃ t', h' !! a = Some t' ∧ parent t' = parent t
           ∧ functions t' !! g = functions t !! g) →
  unregistered h g n k → unregistered h' g n k.
Proof.
  intros Hc. revert k.
  induction Hc as [n t Ht Hp | n t p l Ht Hp Hc IH]; intros k Hsame Hu.
  - destruct (Hsame n t ltac:(by left) Ht) as (t' & Ht' & Hp' & Hf').
    inversion Hu as [? t0 Ht0 Hf Hp0 | ? t0 p0 k0 Ht0 Hf Hp0 Hu0]; subst;
      [|congruence].
    assert (t0 = t) as -> by congruence.
    eapply unregistered_root; [done | congruence | congruence].
  - destruct (Hsame n t ltac:(by left) Ht) as (t' & Ht' & Hp' & Hf').
    inversion Hu as [? t0 Ht0 Hf Hp0 | ? t0 p0 k0 Ht0 Hf Hp0 Hu0]; subst;
      [congruence|].
    assert (t0 = t) as -> by congruence.
    assert (p0 = p) as -> by congruence.
    apply (unregistered_up h' g n t' p k0 Ht'); [congruence | congruence |].
    apply IH; [|done].
    intros a ta Ha Hta. apply (Hsame a ta); [by right | done].
Qed.

Lemma dispatch_transfer call_native eval (h h' : gmap addr SymTable)
    (g : string) n l (args : list ObjPtr) (fuel : nat) :
  chain h n l →
  (∀ a t, a ∈ l → h !! a = Some t →
     ∃ t', h' !! a = Some t' ∧ parent t' = parent t
           ∧ functions t' !! g = functions t !! g) →
  (∀ k d fv, registered_nearest h g n k d fv → k < fuel →
     ∃ td, h !! d = Some td
         ∧ ExecuteFunction call_native eval fuel n g args h'
           = Some (dispatch_at call_native eval n td fv args h'))
  ∧ (∀ k, unregistered h g n k → k < fuel →
       ExecuteFunction call_native eval fuel n g args h'
       = Some (Throw (EvaluationError (not_defined g)) h')).
Proof.
  intros Hc Hsame. split.
  - intros k d fv Hr Hk.
    destruct (registered_nearest_transfer h h' g n l k d fv Hc Hsame Hr)
      as (Hr' & td & td' & Htd & Htd' & Hpar).
    destruct (ExecuteFunction_registered call_native eval h' g k d fv n args
                fuel Hr' Hk) as (t'' & Ht'' & _ & ->).
    exists td. split; [done|].
    assert (t'' = td') as -> by congruence.
    unfold dispatch_at. by rewrite Hpar.
  - intros k Hu Hk. unfold ExecuteFunction.
    erewrite loop_unregistered; [done | | exact Hk].
    by eapply unregistered_transfer.
Qed.

(** X13: a function created in a scope is seen only through that scope.
    For a call made on a scope [n] with a finite chain, of a name other than
    the created one, or of any name when the scope of the creation is not on
    the chain of [n] (an enclosing scope, a sibling), the call finds after
    the creation the entry it found before, or finds none as before. *)
Theorem CreateFunction_scoped call_native eval this (name : string) ps body
    h t (g : string) n l (args : list ObjPtr) (fuel : nat) :
  h !! this = Some t → chain h n l → g ≠ name ∨ this ∉ l →
  ∃ h', CreateFunction this name ps body h = Ret tt h'
      ∧ (∀ k d fv, registered_nearest h g n k d fv → k < fuel →
           ∃ td, h !! d = Some td
               ∧ ExecuteFunction call_native eval fuel n g args h'
                 = Some (dispatch_at call_native eval n td fv args h'))
      ∧ (∀ k, unregistered h g n k → k < fuel →
           ExecuteFunction call_native eval fuel n g args h'
           = Some (Throw (EvaluationError (not_defined g)) h')).
Proof.
  intros Ht Hc Hcase. unfold CreateFunction. rewrite Ht.
  eexists. split; [done|].
  apply dispatch_transfer with (l := l); [done|].
  intros a ta Ha Hta. destruct (decide (a = this)) as [->|Hne].
  - destruct Hcase as [Hg | Hnotin]; [|done].
    rewrite lookup_insert_eq. eexists. split; [done|].
    assert (ta = t) as -> by congruence. simpl.
    split; [done|]. by rewrite lookup_insert_ne.
  - rewrite lookup_insert_ne by done. by exists ta.
Qed.

(** [f] is a native callable at the root.  After a user function [f] is
    created in scope 2, a call of [f] made on the root still runs the native
    callable. *)
Lemma CreateFunction_scoped_witness :
  ∃ h', CreateFunction 2%positive "f" [] 1 store2 = Ret tt h'
      ∧ ExecuteFunction native_zero eval_blocks 1 1%positive "f" [] h'
        = Some (native_zero 0 [] h').
Proof.
  assert (Hroot : chain store2 1%positive [1%positive]).
  { eapply chain_root; [apply store2_global | reflexivity]. }
  destruct (CreateFunction_scoped native_zero eval_blocks 2%positive "f" [] 1
              store2 middle_scope "f" 1%positive [1%positive] [] 1
              store2_middle Hroot)
    as (h' & Hrun & Hfound & _).
  { right. intros Hin. apply list_elem_of_singleton in Hin. discriminate. }
  exists h'. split; [exact Hrun|].
  destruct (Hfound 0 1%positive (Native 0)) as (td & Htd & ->); [|lia|].
  - eapply registered_here; [apply store2_global | reflexivity].
  - assert (Some td = Some global_scope) as [= ->]
      by (rewrite <- Htd; vm_compute; reflexivity).
    reflexivity.
Defined.

(** X14: assigning a variable changes no function resolution: a call made on
    any scope with a finite chain finds after the assignment the entry it
    found before, or finds none as before. *)
Theorem AssignVariable_keeps_dispatch call_native eval this (name : string)
    obj h t (g : string) n l (args : list ObjPtr) (fuel : nat) :
  h !! this = Some t → chain h n l →
  ∃ h', AssignVariable this name obj h = Ret tt h'
      ∧ (∀ k d fv, registered_nearest h g n k d fv → k < fuel →
           ∃ td, h !! d = Some td
               ∧ ExecuteFunction call_native eval fuel n g args h'
                 = Some (dispatch_at call_native eval n td fv args h'))
      ∧ (∀ k, unregistered h g n k → k < fuel →
           ExecuteFunction call_native eval fuel n g args h'
           = Some (Throw (EvaluationError (not_defined g)) h')).
Proof.
  intros Ht Hc. unfold AssignVariable. rewrite Ht.
  eexists. split; [done|].
  apply dispatch_transfer with (l := l); [done|].
  intros a ta Ha Hta. destruct (decide (a = this)) as [->|Hne].
  - rewrite (store_variable_same this name obj h ta Hta). by eexists.
  - rewrite store_variable_other by done. by exists ta.
Qed.

Lemma AssignVariable_keeps_dispatch_witness :
  ∃ h', AssignVariable 2%positive "f" 5%Z store2 = Ret tt h'
      ∧ ExecuteFunction native_zero eval_blocks 1 2%positive "f" [5%Z] h'
        = Some (user_call eval_blocks 2%positive (UserDef def_f) [5%Z] h').
Proof.
  destruct (AssignVariable_keeps_dispatch native_zero eval_blocks 2%positive
              "f" 5%Z store2 middle_scope "f" 2%positive [2; 1]%positive
              [5%Z] 1 store2_middle chain_store2)
    as (h' & Hrun & Hfound & _).
  exists h'. split; [exact Hrun|].
  destruct (Hfound 0 2%positive (UserDef def_f)) as (td & Htd & ->); [|lia|].
  - eapply registered_here; [apply store2_middle | reflexivity].
  - reflexivity.
Defined.
